(** * Monodomain 2D Hodgkin-Huxley example: the driver script and the
      operator-split engine it configures.

    The source is [src/python/monodomain_2D_HH.py], a driver that configures
    the OpenCMISS-Iron library and calls [problem.Solve()] twice.  The first
    part of this development embeds the script: its constants, the field
    initialisations, the two stimulus loops and the order of its library
    calls.  The second part models, from the specification, the engine that
    the script drives (field coupler, reaction integrator, diffusion step,
    partition exchange and time-step orchestrator); the numerical kernels
    stay abstract, as interfaces.

    Conventions.  Python floats are written as the rationals their decimal
    literals denote (type [Q]) and time arithmetic is exact; where a test
    depends on the value the program really holds, the binary64 number
    nearest to the literal is taken ([binary64] below, round to nearest
    even as in IEEE 754).  Python integers that count nodes, elements and
    components are [nat].  The script is Python 2: [/] on two integers is
    floor division. *)

From Stdlib Require Import QArith Qround SpecFloat.
From stdpp Require Import gmap strings list fin_maps.

Local Open Scope nat_scope.
#[local] Set Warnings "-clear-no-such-hyp".

(** ** Script parameters (lines 17-33 and 243-244) *)

Definition height : Q := 5 # 100.
Definition width : Q := 1 # 10.
Definition numberOfXElements : nat := 25.
Definition numberOfYElements : nat := 13.

Definition Am : Q := 1936 # 1.
Definition Cm : Q := 14 # 10.
Definition conductivity : Q := 1 # 1.

Definition stimValue : Q := (-5000) # 1.
Definition stimStop : Q := 2 # 10.
Definition timeStop : Q := 7 # 10.
Definition odeTimeStep : Q := 1 # 100000.
Definition pdeTimeStep : Q := 1 # 1000.
Definition outputFrequency : nat := 10.

Definition linearMeshComponentNumber : nat := 1.

Definition firstNodeNumber : nat := 1.
Definition lastNodeNumber : nat :=
  (numberOfXElements + 1) * (numberOfYElements + 1).

(** Python's [range(lo, hi)]. *)
Definition range (lo hi : nat) : list nat := seq lo (hi - lo).

(** ** Fields

    A field variable of type U, parameter set VALUES, as the script uses it:
    a finite map from (component, node) to a value. *)

Abbreviation Field := (gmap (nat * nat) Q).

(** [field.ParameterSetUpdateNode(U, VALUES, 1, 1, node, component, value)] *)
Definition ParameterSetUpdateNode (node component : nat) (value : Q)
    (f : Field) : Field :=
  <[(component, node) := value]> f.

(** [field.ComponentValuesInitialise(U, VALUES, component, value)]: every
    node the worker holds gets [value] in [component]. *)
Definition ComponentValuesInitialise (nodes : list nat) (component : nat)
    (value : Q) (f : Field) : Field :=
  foldr (fun node acc => ParameterSetUpdateNode node component value acc)
        f nodes.

(** ** External collaborators, as interfaces *)

Inductive CellMLFieldTypes := MODELS | STATE | INTERMEDIATE | PARAMETERS.

(** The mesh provider: the calculated decomposition and the halo sets. *)
Class MeshProvider := {
  (** [decomposition.NodeDomainGet(node, meshComponent)] *)
  NodeDomainGet : nat -> nat -> nat;
  (** nodes a worker holds as read-only copies of nodes owned elsewhere *)
  haloNodes : nat -> list nat
}.

(** The reaction model provider: the imported CellML model. *)
Class ReactionModel := {
  (** names of the variables the model declares *)
  modelVariables : list string;
  (** the model's initial values *)
  modelDefaults : gmap string Q;
  (** [cellML.FieldComponentGet(cellModel, fieldType, name)] *)
  FieldComponentGet : CellMLFieldTypes -> string -> nat;
  (** one sub-step of the model's numerical scheme at one node:
      state and parameters at time [t], step [dt] *)
  modelStep : Q -> Q -> gmap string Q -> gmap string Q
}.

(** The finite-element diffusion step for one worker: time step, materials
    and previous-step values of this worker, new dependent field. *)
Class DiffusionKernel := {
  solveStep : Q -> nat -> Field -> Field -> Field
}.

(** ** A worker's mutable store *)

Record Store := mkStore {
  materialsField : Field;
  dependentField : Field;
  cellMLParametersField : Field;
  cellMLIntermediateField : Field;
  (** Reaction State: node, then variable name *)
  reactionState : gmap nat (gmap string Q)
}.

Definition set_materialsField (g : Field -> Field) (s : Store) : Store :=
  mkStore (g (materialsField s)) (dependentField s)
          (cellMLParametersField s) (cellMLIntermediateField s)
          (reactionState s).

Definition set_dependentField (g : Field -> Field) (s : Store) : Store :=
  mkStore (materialsField s) (g (dependentField s))
          (cellMLParametersField s) (cellMLIntermediateField s)
          (reactionState s).

Definition set_cellMLParametersField (g : Field -> Field) (s : Store)
    : Store :=
  mkStore (materialsField s) (dependentField s)
          (g (cellMLParametersField s)) (cellMLIntermediateField s)
          (reactionState s).

Definition set_cellMLIntermediateField (g : Field -> Field) (s : Store)
    : Store :=
  mkStore (materialsField s) (dependentField s)
          (cellMLParametersField s) (g (cellMLIntermediateField s))
          (reactionState s).

Definition set_reactionState
    (g : gmap nat (gmap string Q) -> gmap nat (gmap string Q)) (s : Store)
    : Store :=
  mkStore (materialsField s) (dependentField s)
          (cellMLParametersField s) (cellMLIntermediateField s)
          (g (reactionState s)).

(** ** The script's field set-up and stimulus loops *)

Section Script.
Context {mesh : MeshProvider} {model : ReactionModel}.

(** The nodes a worker holds: the ones it owns and its halo. *)
Definition ownedNodes (rank : nat) : list nat :=
  filter (fun node => NodeDomainGet node 1 = rank)
         (range firstNodeNumber (lastNodeNumber + 1)).

Definition localNodes (rank : nat) : list nat :=
  ownedNodes rank ++ haloNodes rank.

(** Lines 226 and 249. *)
Definition cmComponent : nat := FieldComponentGet PARAMETERS "membrane/Cm".
Definition stimComponent : nat :=
  FieldComponentGet PARAMETERS "membrane/i_Stim".

(** The store right after the fields are created: nothing set yet, the
    Reaction State at the model's defaults on every local node. *)
Definition createStore (rank : nat) : Store :=
  mkStore ∅ ∅ ∅ ∅
    (list_to_map ((fun node => (node, modelDefaults)) <$> localNodes rank)).

(** Lines 155-160: materials values. *)
Definition setMaterials (rank : nat) (s : Store) : Store :=
  let init c v := set_materialsField
                    (ComponentValuesInitialise (localNodes rank) c v) in
  init 4 conductivity (init 3 conductivity (init 2 Cm (init 1 Am s))).

(** Line 201: initial Vm. *)
Definition setInitialVm (rank : nat) (s : Store) : Store :=
  set_dependentField
    (ComponentValuesInitialise (localNodes rank) 1 ((-75) # 1)) s.

(** Lines 226-227: initial Cm of the reaction model. *)
Definition setInitialCm (rank : nat) (s : Store) : Store :=
  set_cellMLParametersField
    (ComponentValuesInitialise (localNodes rank) cmComponent Cm) s.

(** The node range of both stimulus loops (lines 250 and 313). *)
Definition stimulusRange : list nat :=
  range 1 ((numberOfXElements + 1) / 2 + 1).

(** The body of both loops (lines 251-253 and 315-317), on worker
    [computationalNodeNumber]. *)
Definition stimulusBody (computationalNodeNumber : nat) (value : Q)
    (s : Store) (node : nat) : Store :=
  let nodeDomain := NodeDomainGet node 1 in
  if decide (nodeDomain = computationalNodeNumber)
  then set_cellMLParametersField
         (ParameterSetUpdateNode node stimComponent value) s
  else s.

Definition stimulusLoop (computationalNodeNumber : nat) (value : Q)
    (s : Store) : Store :=
  foldl (stimulusBody computationalNodeNumber value) s stimulusRange.

(** The calls to [ParameterSetUpdateNode] a worker's loop makes, in
    order: the nodes it writes. *)
Definition stimulusWrites (computationalNodeNumber : nat) : list nat :=
  filter (fun node => NodeDomainGet node 1 = computationalNodeNumber)
         stimulusRange.

(** Lines 143-253: the store a worker hands to the first solve. *)
Definition setUp (rank : nat) : Store :=
  stimulusLoop rank stimValue
    (setInitialCm rank (setInitialVm rank (setMaterials rank
       (createStore rank)))).

(** Lines 313-317. *)
Definition stimulusOff (rank : nat) (s : Store) : Store :=
  stimulusLoop rank (0 # 1) s.

End Script.

(** ** The configuration the script builds *)

Inductive ProblemClasses := BIOELECTRICS.
Inductive ProblemTypes := MONODOMAIN_EQUATION.
Inductive ProblemSubtypes := MONODOMAIN_GUDUNOV_SPLIT.

Inductive SolverKind := DAESolver | DynamicSolver.

Record Solver := mkSolver {
  solverKind : SolverKind;
  solverTimeStep : option Q
}.

Record Config := mkConfig {
  (** [cellML.VariableSetAsKnown] / [VariableSetAsWanted] *)
  knownVariables : list string;
  wantedVariables : list string;
  (** [CreateFieldToCellMLMap]: dependent-field component, variable name *)
  fieldToCellMLMap : list (nat * string);
  (** [CreateCellMLToFieldMap]: variable name, dependent-field component *)
  cellMLToFieldMap : list (string * nat);
  problemSpecification : ProblemClasses * ProblemTypes * ProblemSubtypes;
  (** [controlLoop.TimesSet(start, stop, increment)] *)
  controlLoopTimes : Q * Q * Q;
  timeOutput : nat;
  solvers : list Solver
}.

(** Modelled from the spec: the solvers [problem.SolversCreateStart] creates
    for a Godunov-split problem are not in the script; the script's comments
    (lines 278 and 282) and section 4.1 give the reaction (DAE) solver first
    and the dynamic (diffusion) solver second. *)
Definition SolversCreateStart (subtype : ProblemSubtypes) : list Solver :=
  match subtype with
  | MONODOMAIN_GUDUNOV_SPLIT =>
      [mkSolver DAESolver None; mkSolver DynamicSolver None]
  end.

(** [problem.SolverGet([NODE], index, solver)] followed by
    [solver.DAETimeStepSet(dt)]: solvers are numbered from 1. *)
Definition DAETimeStepSet (index : nat) (dt : Q) (l : list Solver)
    : list Solver :=
  alter (fun s => mkSolver (solverKind s) (Some dt)) (index - 1) l.

Definition TimesSet (start stop increment : Q) (c : Config) : Config :=
  mkConfig (knownVariables c) (wantedVariables c) (fieldToCellMLMap c)
           (cellMLToFieldMap c) (problemSpecification c)
           (start, stop, increment) (timeOutput c) (solvers c).

(** Lines 179-182, 194-195, 258-260, 269-271, 277-285: the configuration at
    the first [problem.Solve()]. *)
Definition problemSubtype : ProblemSubtypes := MONODOMAIN_GUDUNOV_SPLIT.

Definition firstConfig : Config :=
  mkConfig ["membrane/i_Stim"; "membrane/Cm"]
           ["membrane/i_K"]
           [(1, "membrane/V")]
           [("membrane/V", 1)]
           (BIOELECTRICS, MONODOMAIN_EQUATION, problemSubtype)
           (0 # 1, stimStop, pdeTimeStep)%Q
           outputFrequency
           (DAETimeStepSet 1 odeTimeStep (SolversCreateStart problemSubtype)).

(** Line 320: the configuration at the second [problem.Solve()]. *)
Definition secondConfig : Config :=
  TimesSet stimStop timeStop pdeTimeStep firstConfig.

(** ** Errors and the state-and-error monad of the engine

    A library call either returns or raises; the store it was mutating
    stays as the call left it. *)

Inductive Error :=
| ConfigurationError (what : string)
| MappingConfigurationError (variable : string).

Inductive Result (A : Type) :=
| Ok (a : A)
| Raise (e : Error).
Arguments Ok {A} a.
Arguments Raise {A} e.

Definition M (S A : Type) : Type := S -> S * Result A.

Definition ret {S A} (a : A) : M S A := fun s => (s, Ok a).
Definition raise {S A} (e : Error) : M S A := fun s => (s, Raise e).
Definition bind {S A B} (m : M S A) (k : A -> M S B) : M S B :=
  fun s => match m s with
           | (s', Ok a) => k a s'
           | (s', Raise e) => (s', Raise e)
           end.
Definition modify {S} (g : S -> S) : M S unit := fun s => (g s, Ok tt).

Notation "m1 ;; m2" := (bind m1 (fun _ => m2))
  (at level 100, m2 at level 200, right associativity).

(** Run [body] for each element of a list, in order, stopping at the first
    error. *)
Fixpoint forEach {S A} (body : A -> M S unit) (l : list A) : M S unit :=
  match l with
  | [] => ret tt
  | a :: l' => body a ;; forEach body l'
  end.

Definition liftResult {S} (r : Result unit) : M S unit :=
  fun s => (s, r).

(** * The engine the script drives *)

(** The phases of one PDE increment, as the orchestrator logs them. *)
Inductive Phase :=
| PushStimulus
| IntegrateReaction (tStart tEnd dtSub : Q)
| PullFromReaction
| DiffusionSolve (dt : Q)
| PushVoltage
| Reconcile.

(** All workers' stores, indexed by rank, and the log of phases begun. *)
Record World := mkWorld {
  workers : list Store;
  phaseLog : list Phase
}.

(** Write a list of (key, value) assignments into a map; of two assignments
    to one key the earlier one in the list wins. *)
Definition assign `{Countable K} {V} (l : list (K * V)) (m : gmap K V)
    : gmap K V :=
  list_to_map l ∪ m.

Definition readField (f : Field) (component node : nat) : Q :=
  default (0 # 1)%Q (f !! (component, node)).

Definition readVariable (rs : gmap nat (gmap string Q)) (node : nat)
    (variable : string) : Q :=
  default (0 # 1)%Q (rs !! node ≫= fun x => x !! variable).

(** ** The step sizes as the program holds them

    A Python float literal is the binary64 number nearest to the decimal it
    spells.  For a rational whose reduced numerator and denominator are
    below 2^53 that number is the correctly rounded quotient of the two. *)

Definition float_of_Z (n : Z) : spec_float := binary_normalize 53 1024 n 0 false.

Definition binary64 (q : Q) : spec_float :=
  let r := Qred q in
  SFdiv 53 1024 (float_of_Z (Qnum r)) (float_of_Z (Zpos (Qden r))).

(** Is a binary64 number a whole number? *)
Definition isIntegral (x : spec_float) : bool :=
  match x with
  | S754_zero _ => true
  | S754_finite _ m e =>
      if (0 <=? e)%Z then true else (Zpos m mod 2 ^ (- e) =? 0)%Z
  | _ => false
  end.

(** The whole part of a binary64 number. *)
Definition wholePart (x : spec_float) : Z :=
  match x with
  | S754_finite s m e =>
      cond_Zopp s (if (0 <=? e)%Z then Zpos m * 2 ^ e
                   else Zpos m / 2 ^ (- e))%Z
  | _ => 0%Z
  end.

(** The ratio of an interval to a sub-step, as binary64 division gives
    it. *)
Definition stepRatio (dtSub interval : Q) : spec_float :=
  SFdiv 53 1024 (binary64 interval) (binary64 dtSub).

(** Modelled from the spec: the divisibility test of the Reaction
    Integrator (sections 4.2, 7 and 8) is library code; no such test is in
    the script.  The sub-step divides the interval when it is positive and
    the ratio of the two binary64 values is a whole number (section 8:
    a non-integer ratio must fail). *)
Definition evenlyDivides (dtSub interval : Q) : bool :=
  negb (Qle_bool dtSub (0 # 1)) && isIntegral (stepRatio dtSub interval).

(** Modelled from the spec: the number of sub-steps of one interval. *)
Definition subSteps (dtSub interval : Q) : nat :=
  Z.to_nat (wholePart (stepRatio dtSub interval)).

Section Engine.
Context {mesh : MeshProvider} {model : ReactionModel}
        {kernel : DiffusionKernel}.

(** ** Field Coupler (section 4.4)

    Modelled from the spec: the coupler is library code the script only
    configures (lines 179-198).  A call first resolves every mapped name
    in the reaction model, then copies on all owned nodes. *)

Definition checkMapped (names : list string) : Result unit :=
  match filter (fun v => v ∉ modelVariables) names with
  | [] => Ok tt
  | v :: _ => Raise (MappingConfigurationError v)
  end.

(** The values one node receives from a field. *)
Definition pushedVariables (maps : list (nat * string)) (f : Field)
    (node : nat) (x : gmap string Q) : gmap string Q :=
  assign ((fun cv => (cv.2, readField f cv.1 node)) <$> maps) x.

Definition copyToReaction (nodes : list nat) (maps : list (nat * string))
    (f : Field) (rs : gmap nat (gmap string Q))
    : gmap nat (gmap string Q) :=
  assign ((fun node =>
             (node, pushedVariables maps f node (default ∅ (rs !! node))))
          <$> nodes) rs.

Definition copyToField (nodes : list nat) (maps : list (string * nat))
    (rs : gmap nat (gmap string Q)) (f : Field) : Field :=
  assign (node ← nodes;
          (fun vc => ((vc.2, node), readVariable rs node vc.1)) <$> maps) f.

Definition pushed (rank : nat) (maps : list (nat * string))
    (source : Store -> Field) (s : Store) : Store :=
  set_reactionState (copyToReaction (ownedNodes rank) maps (source s)) s.

Definition pushToReaction (rank : nat) (maps : list (nat * string))
    (source : Store -> Field) : M Store unit :=
  liftResult (checkMapped (maps.*2)) ;;
  modify (pushed rank maps source).

Definition intermediateMaps (wanted : list string) : list (string * nat) :=
  (fun v => (v, FieldComponentGet INTERMEDIATE v)) <$> wanted.

Definition pulled (rank : nat) (maps : list (string * nat))
    (wanted : list string) (s : Store) : Store :=
  set_cellMLIntermediateField
    (copyToField (ownedNodes rank) (intermediateMaps wanted)
                 (reactionState s))
    (set_dependentField
       (copyToField (ownedNodes rank) maps (reactionState s)) s).

Definition pullFromReaction (rank : nat) (maps : list (string * nat))
    (wanted : list string) : M Store unit :=
  liftResult (checkMapped (maps.*1 ++ wanted)) ;;
  modify (pulled rank maps wanted).

(** The known variables are pushed from the parameters field. *)
Definition parameterMaps (known : list string) : list (nat * string) :=
  (fun v => (FieldComponentGet PARAMETERS v, v)) <$> known.

(** ** Reaction Integrator (section 4.2)

    Modelled from the spec: [advance(nodes, tStart, tEnd, dtSub)]; the
    divisibility check comes before any node is integrated. *)

Fixpoint integrateNode (n : nat) (t dt : Q) (x : gmap string Q)
    : gmap string Q :=
  match n with
  | 0 => x
  | S n' => integrateNode n' (t + dt)%Q dt (modelStep t dt x)
  end.

Definition integrated (nodes : list nat) (tStart tEnd dtSub : Q)
    (s : Store) : Store :=
  set_reactionState (fun rs =>
    assign ((fun node =>
               (node, integrateNode (subSteps dtSub (tEnd - tStart)%Q)
                                    tStart dtSub
                                    (default ∅ (rs !! node))))
            <$> nodes) rs) s.

Definition advance (nodes : list nat) (tStart tEnd dtSub : Q)
    : M Store unit :=
  if evenlyDivides dtSub (tEnd - tStart)%Q
  then modify (integrated nodes tStart tEnd dtSub)
  else raise (ConfigurationError
                "ODE sub-step does not evenly divide the interval").

(** ** Diffusion Solver (section 4.3): one step on one worker. *)
Definition diffused (rank : nat) (dt : Q) (s : Store) : Store :=
  set_dependentField (solveStep dt rank (materialsField s)) s.

Definition diffuse (rank : nat) (dt : Q) : M Store unit :=
  modify (diffused rank dt).

(** ** Partition Exchange (section 4.5)

    Modelled from the spec: every worker receives, for each of its halo
    nodes and each reconciled component, the value the owner holds. *)

Definition haloAssignments (components : list nat) (all : list Store)
    (rank : nat) : list (nat * nat * Q) :=
  node ← haloNodes rank;
  c ← components;
  match all !! NodeDomainGet node 1 ≫=
        (fun owner => dependentField owner !! (c, node)) with
  | Some x => [((c, node), x)]
  | None => []
  end.

Definition reconcile (components : list nat) (all : list Store)
    : list Store :=
  imap (fun rank s =>
          set_dependentField (assign (haloAssignments components all rank))
                             s)
       all.

End Engine.

(** ** Time-Step Orchestrator (section 4.1)

    Modelled from the spec: [problem.Solve()] is library code.  It refuses a
    bad configuration before the first increment, then runs the solvers of
    the problem in their order once per PDE increment. *)

Section Orchestrator.
Context {mesh : MeshProvider} {model : ReactionModel}
        {kernel : DiffusionKernel}.

(** Run a per-worker call on every worker, by rank. *)
Fixpoint runWorkers (body : nat -> M Store unit) (rank : nat)
    (l : list Store) : list Store * Result unit :=
  match l with
  | [] => ([], Ok tt)
  | s :: l' =>
      match body rank s with
      | (s', Ok _) =>
          let (l'', r) := runWorkers body (S rank) l' in (s' :: l'', r)
      | (s', Raise e) => (s' :: l', Raise e)
      end
  end.

Definition onWorkers (body : nat -> M Store unit) : M World unit :=
  fun w => let (l, r) := runWorkers body 0 (workers w) in
           (mkWorld l (phaseLog w), r).

Definition note (p : Phase) : M World unit :=
  modify (fun w => mkWorld (workers w) (phaseLog w ++ [p])).

(** The fields reconciled across workers: the voltage. *)
Definition haloComponents : list nat := [1].

Definition runPhase (cfg : Config) (p : Phase) : M World unit :=
  note p ;;
  match p with
  | PushStimulus =>
      onWorkers (fun rank =>
        pushToReaction rank (parameterMaps (knownVariables cfg))
                       cellMLParametersField)
  | IntegrateReaction tStart tEnd dtSub =>
      onWorkers (fun rank => advance (ownedNodes rank) tStart tEnd dtSub)
  | PullFromReaction =>
      onWorkers (fun rank =>
        pullFromReaction rank (cellMLToFieldMap cfg) (wantedVariables cfg))
  | DiffusionSolve dt =>
      onWorkers (fun rank => diffuse rank dt)
  | PushVoltage =>
      onWorkers (fun rank =>
        pushToReaction rank (fieldToCellMLMap cfg) dependentField)
  | Reconcile =>
      modify (fun w =>
        mkWorld (reconcile haloComponents (workers w)) (phaseLog w))
  end.

(** What one solver contributes to an increment starting at [t]. *)
Definition solverPhases (t dt : Q) (s : Solver) : list Phase :=
  match solverKind s with
  | DAESolver =>
      [PushStimulus;
       IntegrateReaction t (t + dt)%Q (default dt (solverTimeStep s));
       PullFromReaction]
  | DynamicSolver => [DiffusionSolve dt; PushVoltage; Reconcile]
  end.

Definition schedule (cfg : Config) (t dt : Q) : list Phase :=
  s ← solvers cfg; solverPhases t dt s.

Definition increment (cfg : Config) (t dt : Q) : M World unit :=
  forEach (runPhase cfg) (schedule cfg t dt).

Definition timeAt (start dt : Q) (k : nat) : Q :=
  (start + inject_Z (Z.of_nat k) * dt)%Q.

Definition numberOfIncrements (start stop dt : Q) : nat :=
  Z.to_nat (Qceiling ((stop - start) / dt)).

Definition solverReady (dt : Q) (s : Solver) : bool :=
  match solverKind s, solverTimeStep s with
  | DAESolver, Some dtSub => evenlyDivides dtSub dt
  | DAESolver, None => false
  | DynamicSolver, _ => true
  end.

Definition mappedNames (cfg : Config) : list string :=
  knownVariables cfg ++ wantedVariables cfg ++
  (fieldToCellMLMap cfg).*2 ++ (cellMLToFieldMap cfg).*1.

(** The configuration errors of section 7, in the order checked. *)
Definition validate (cfg : Config) : Result unit :=
  let '(start, stop, dt) := controlLoopTimes cfg in
  if Qle_bool stop start || Qle_bool dt (0 # 1)
  then Raise (ConfigurationError "malformed time interval")
  else if negb (forallb (solverReady dt) (solvers cfg))
  then Raise (ConfigurationError
                "ODE sub-step does not evenly divide the PDE step")
  else checkMapped (mappedNames cfg).

Definition Solve (cfg : Config) : M World unit :=
  let '(start, stop, dt) := controlLoopTimes cfg in
  liftResult (validate cfg) ;;
  forEach (fun k => increment cfg (timeAt start dt k) dt)
          (seq 0 (numberOfIncrements start stop dt)).

(** ** The script as a whole (lines 143-323), on all workers

    Every worker runs the same script; [problem.Solve()] is collective.
    An error raised by the first solve ends the script. *)

Definition initialWorld (numberOfComputationalNodes : nat) : World :=
  mkWorld (setUp <$> seq 0 numberOfComputationalNodes) [].

Definition turnStimulusOff : M World unit :=
  modify (fun w => mkWorld (imap stimulusOff (workers w)) (phaseLog w)).

Definition main (numberOfComputationalNodes : nat) : World * Result unit :=
  (Solve firstConfig ;; turnStimulusOff ;; Solve secondConfig)
    (initialWorld numberOfComputationalNodes).

End Orchestrator.

(** ** A stand-in mesh, model and kernel, to run the definitions

    One or two workers; the model declares the four variables the script
    names and leaves the state as it is; diffusion leaves the field as it
    is. *)

Definition singleDomain : MeshProvider :=
  {| NodeDomainGet := fun _ _ => 0; haloNodes := fun _ => [] |}.

(** Two domains split at node 7; each holds the other's boundary node. *)
Definition twoDomains : MeshProvider :=
  {| NodeDomainGet := fun node _ => if decide (node ≤ 7) then 0 else 1;
     haloNodes := fun rank => if decide (rank = 0) then [8] else [7] |}.

Definition standInModel : ReactionModel :=
  {| modelVariables :=
       ["membrane/V"; "membrane/i_Stim"; "membrane/Cm"; "membrane/i_K"];
     modelDefaults := {[ "membrane/V" := ((-75) # 1)%Q ]};
     FieldComponentGet := fun _ name =>
       if decide (name = "membrane/i_Stim") then 1
       else if decide (name = "membrane/Cm") then 2 else 3;
     modelStep := fun _ _ x => x |}.

Definition standInKernel : DiffusionKernel :=
  {| solveStep := fun _ _ _ previous => previous |}.

(** ** The mesh parameters as parameters

    The stimulus range (lines 250 and 313) and the node count (line 244) as
    functions of the element counts of lines 19-20. *)

Definition stimulusRangeOf (nx : nat) : list nat :=
  range 1 ((nx + 1) / 2 + 1).

Definition lastNodeNumberOf (nx ny : nat) : nat := (nx + 1) * (ny + 1).

(** ** Vocabulary for the properties below *)

(** A call keeps a relation between the state before and the state after,
    whether it returns or raises. *)
Definition preserves {S A} (R : S -> S -> Prop) (m : M S A) : Prop :=
  forall s, R s (m s).1.

(** What no phase of the engine writes: the parameters and materials
    fields. *)
Definition sameInputs (s s' : Store) : Prop :=
  cellMLParametersField s' = cellMLParametersField s ∧
  materialsField s' = materialsField s.

Definition sameWorldInputs (w w' : World) : Prop :=
  Forall2 sameInputs (workers w) (workers w').

Section PhaseEffects.
Context {mesh : MeshProvider} {model : ReactionModel}
        {kernel : DiffusionKernel}.

(** What a phase that returns does to the workers' stores. *)
Definition phaseEffect (cfg : Config) (p : Phase) (all : list Store)
    : list Store :=
  match p with
  | PushStimulus =>
      imap (fun rank => pushed rank (parameterMaps (knownVariables cfg))
                               cellMLParametersField) all
  | IntegrateReaction tStart tEnd dtSub =>
      imap (fun rank => integrated (ownedNodes rank) tStart tEnd dtSub) all
  | PullFromReaction =>
      imap (fun rank => pulled rank (cellMLToFieldMap cfg)
                               (wantedVariables cfg)) all
  | DiffusionSolve dt => imap (fun rank => diffused rank dt) all
  | PushVoltage =>
      imap (fun rank => pushed rank (fieldToCellMLMap cfg) dependentField)
           all
  | Reconcile => reconcile haloComponents all
  end.

Definition phasesEffect (cfg : Config) (ps : list Phase) (all : list Store)
    : list Store :=
  foldl (fun l p => phaseEffect cfg p l) all ps.

(** A reaction phase can run when its sub-step divides its interval. *)
Definition phaseReady (p : Phase) : Prop :=
  match p with
  | IntegrateReaction tStart tEnd dtSub =>
      evenlyDivides dtSub (tEnd - tStart)%Q = true
  | _ => True
  end.

End PhaseEffects.

(** * Properties of the script *)

Section ScriptFacts.
Context {mesh : MeshProvider} {model : ReactionModel}.

Lemma ComponentValuesInitialise_lookup (nodes : list nat) (c : nat) (v : Q)
    (f : Field) (c' n : nat) :
  ComponentValuesInitialise nodes c v f !! (c', n) =
  if decide (c' = c ∧ n ∈ nodes) then Some v else f !! (c', n).
Proof.
  induction nodes as [|a nodes IH]; simpl.
  - case_decide as H; [destruct H as [_ H]; inversion H | done].
  - unfold ParameterSetUpdateNode at 1. rewrite lookup_insert.
    fold (ComponentValuesInitialise nodes c v f). rewrite IH.
    repeat case_decide; rewrite ?elem_of_cons in *; naive_solver.
Qed.

Lemma stimulusRange_nodes :
  stimulusRange = [1; 2; 3; 4; 5; 6; 7; 8; 9; 10; 11; 12; 13].
Proof. reflexivity. Qed.

Lemma elem_of_range (lo hi n : nat) : n ∈ range lo hi ↔ lo ≤ n < hi.
Proof. unfold range. rewrite elem_of_seq. lia. Qed.

Lemma elem_of_stimulusRange (node : nat) :
  node ∈ stimulusRange ↔ 1 ≤ node ≤ (numberOfXElements + 1) / 2.
Proof. unfold stimulusRange. rewrite elem_of_range. lia. Qed.

Lemma elem_of_stimulusWrites (rank node : nat) :
  node ∈ stimulusWrites rank ↔
  node ∈ stimulusRange ∧ NodeDomainGet node 1 = rank.
Proof. unfold stimulusWrites. rewrite list_elem_of_filter. tauto. Qed.

(** The loop is its guarded writes, one after the other. *)
Lemma stimulusLoop_writes (rank : nat) (value : Q) (s : Store) :
  stimulusLoop rank value s =
  foldl (fun s' node =>
           set_cellMLParametersField
             (ParameterSetUpdateNode node stimComponent value) s')
        s (stimulusWrites rank).
Proof.
  unfold stimulusLoop, stimulusWrites.
  generalize stimulusRange. intros l. revert s.
  induction l as [|a l IH]; intros s; [done|].
  simpl. rewrite IH. unfold stimulusBody.
  rewrite filter_cons. by case_decide.
Qed.

Lemma stimulusWrites_fold (l : list nat) (value : Q) (s : Store) :
  let s' := foldl (fun s' node =>
              set_cellMLParametersField
                (ParameterSetUpdateNode node stimComponent value) s') s l in
  materialsField s' = materialsField s ∧
  dependentField s' = dependentField s ∧
  cellMLIntermediateField s' = cellMLIntermediateField s ∧
  reactionState s' = reactionState s ∧
  ∀ c n, cellMLParametersField s' !! (c, n) =
         if decide (c = stimComponent ∧ n ∈ l) then Some value
         else cellMLParametersField s !! (c, n).
Proof.
  revert s. induction l as [|a l IH]; intros s; simpl.
  - repeat split. intros c n. case_decide as H; [|done].
    destruct H as [_ H]. inversion H.
  - destruct (IH (set_cellMLParametersField
                    (ParameterSetUpdateNode a stimComponent value) s))
      as (H1 & H2 & H3 & H4 & H5).
    repeat split; try done. intros c n. rewrite H5. simpl.
    unfold ParameterSetUpdateNode. rewrite lookup_insert.
    repeat case_decide; rewrite ?elem_of_cons in *; naive_solver.
Qed.

Lemma stimulusLoop_parameters (rank : nat) (value : Q) (s : Store)
    (c n : nat) :
  cellMLParametersField (stimulusLoop rank value s) !! (c, n) =
  if decide (c = stimComponent ∧ n ∈ stimulusWrites rank) then Some value
  else cellMLParametersField s !! (c, n).
Proof. rewrite stimulusLoop_writes. apply stimulusWrites_fold. Qed.

Lemma stimulusLoop_frame (rank : nat) (value : Q) (s : Store) :
  materialsField (stimulusLoop rank value s) = materialsField s ∧
  dependentField (stimulusLoop rank value s) = dependentField s ∧
  cellMLIntermediateField (stimulusLoop rank value s) =
    cellMLIntermediateField s ∧
  reactionState (stimulusLoop rank value s) = reactionState s.
Proof.
  rewrite stimulusLoop_writes.
  pose proof (stimulusWrites_fold (stimulusWrites rank) value s) as H.
  simpl in H. tauto.
Qed.

End ScriptFacts.

Section ScriptProperties.
Context {mesh : MeshProvider} {model : ReactionModel}
        {kernel : DiffusionKernel}.

Lemma elem_of_ownedNodes (rank node : nat) :
  node ∈ ownedNodes rank ↔
  1 ≤ node ≤ lastNodeNumber ∧ NodeDomainGet node 1 = rank.
Proof.
  unfold ownedNodes. rewrite list_elem_of_filter, elem_of_range.
  unfold firstNodeNumber. lia.
Qed.

Lemma initialWorld_lookup (N rank : nat) (s : Store) :
  workers (initialWorld N) !! rank = Some s → s = setUp rank ∧ rank < N.
Proof.
  unfold initialWorld. simpl. rewrite list_lookup_fmap.
  intros H. destruct (seq 0 N !! rank) as [r|] eqn:E; [|done].
  apply lookup_seq in E as [-> ?]. simpl in H. by inversion H.
Qed.

Lemma filter_eq_none (d : nat) (l : list nat) :
  d ∉ l → filter (fun r => r = d) l = [].
Proof.
  induction l as [|a l IH]; intros Hd; [done|].
  apply not_elem_of_cons in Hd as [Hne Hl].
  rewrite filter_cons_False by congruence. auto.
Qed.

Lemma filter_eq_seq (d N : nat) :
  d < N → filter (fun r => r = d) (seq 0 N) = [d].
Proof.
  induction N as [|N IH]; intros Hd; [lia|].
  rewrite seq_S, filter_app. simpl.
  destruct (decide (d = N)) as [->|Hne].
  - rewrite filter_cons_True by done. rewrite filter_nil.
    rewrite filter_eq_none; [done|].
    intros Hx%elem_of_seq. lia.
  - rewrite IH by lia. rewrite filter_cons_False by congruence. done.
Qed.


(** C10: at the first solve, materials component 2 and the reaction
    model's membrane/Cm parameter both hold the constant Cm = 1.4 at every
    node a worker holds. *)
Theorem C10_capacitance_consistent (rank node : nat) :
  cmComponent ≠ stimComponent →
  node ∈ localNodes rank →
  materialsField (setUp rank) !! (2, node) = Some Cm ∧
  cellMLParametersField (setUp rank) !! (cmComponent, node) = Some Cm ∧
  (Cm == 14 / 10)%Q.
Proof.
  intros Hne Hn. unfold setUp. split; [|split; [|reflexivity]].
  - destruct (stimulusLoop_frame rank stimValue
                (setInitialCm rank (setInitialVm rank
                   (setMaterials rank (createStore rank)))))
      as (-> & _).
    simpl. rewrite !ComponentValuesInitialise_lookup.
    rewrite decide_False by (intros [? _]; lia).
    rewrite decide_False by (intros [? _]; lia).
    by rewrite decide_True.
  - rewrite stimulusLoop_parameters.
    rewrite decide_False by (intros [? _]; done).
    simpl. rewrite ComponentValuesInitialise_lookup. by rewrite decide_True.
Qed.

(** C9: a worker's stimulus loop writes a node only if the node is in its
    own domain, and of the workers 0..N-1 exactly the owner writes a node
    of the stimulus range; the loop is these writes and nothing else. *)
Theorem C9_single_writer (N node : nat) :
  (∀ n, NodeDomainGet n 1 < N) →
  node ∈ stimulusRange →
  filter (fun rank => node ∈ stimulusWrites rank) (seq 0 N) =
    [NodeDomainGet node 1] ∧
  (∀ rank n, n ∈ stimulusWrites rank → NodeDomainGet n 1 = rank) ∧
  (∀ rank value s,
     stimulusLoop rank value s =
     foldl (fun s' n =>
              set_cellMLParametersField
                (ParameterSetUpdateNode n stimComponent value) s')
           s (stimulusWrites rank)).
Proof.
  intros Hdom Hnode. split; [|split].
  - rewrite <- (filter_eq_seq (NodeDomainGet node 1) N) by apply Hdom.
    apply list_filter_iff. intros rank.
    rewrite elem_of_stimulusWrites. naive_solver.
  - intros rank n Hn. by apply elem_of_stimulusWrites in Hn as [_ ?].
  - intros. apply stimulusLoop_writes.
Qed.

End ScriptProperties.

(** * Properties of the engine *)

Section MonadFacts.
Context {S : Type} (R : S -> S -> Prop) `{!Reflexive R} `{!Transitive R}.

Lemma preserves_ret {A} (a : A) : preserves R (ret a).
Proof. intros s. simpl. reflexivity. Qed.

Lemma preserves_raise {A} (e : Error) : preserves R (@raise S A e).
Proof. intros s. simpl. reflexivity. Qed.

Lemma preserves_liftResult (r : Result unit) : preserves R (liftResult r).
Proof. intros s. simpl. reflexivity. Qed.

Lemma preserves_modify (g : S -> S) :
  (forall s, R s (g s)) -> preserves R (modify g).
Proof. intros H s. apply H. Qed.

Lemma preserves_bind {A B} (m : M S A) (k : A -> M S B) :
  preserves R m -> (forall a, preserves R (k a)) -> preserves R (bind m k).
Proof.
  intros Hm Hk s. unfold bind. specialize (Hm s).
  destruct (m s) as [s' [a|e]]; simpl in *; [|done].
  etransitivity; [exact Hm | apply Hk].
Qed.

Lemma preserves_forEach {A} (body : A -> M S unit) (l : list A) :
  (forall a, preserves R (body a)) -> preserves R (forEach body l).
Proof.
  intros Hb. induction l as [|a l IH]; simpl.
  - apply preserves_ret.
  - apply preserves_bind; [apply Hb | intros _; apply IH].
Qed.

End MonadFacts.

#[local] Instance sameInputs_refl : Reflexive sameInputs.
Proof. by intros s. Qed.

#[local] Instance sameInputs_trans : Transitive sameInputs.
Proof. intros a b c [H1 H2] [H3 H4]. split; congruence. Qed.

#[local] Instance sameWorldInputs_refl : Reflexive sameWorldInputs.
Proof. intros w. unfold sameWorldInputs. reflexivity. Qed.

#[local] Instance sameWorldInputs_trans : Transitive sameWorldInputs.
Proof.
  intros a b c. unfold sameWorldInputs. intros H1 H2.
  by etransitivity.
Qed.

Section EngineFrame.
Context {mesh : MeshProvider} {model : ReactionModel}
        {kernel : DiffusionKernel}.

Lemma pushToReaction_frame (rank : nat) (maps : list (nat * string))
    (source : Store -> Field) :
  preserves sameInputs (pushToReaction rank maps source).
Proof.
  apply preserves_bind; try apply _; [apply preserves_liftResult; apply _|].
  intros _. by apply preserves_modify.
Qed.

Lemma pullFromReaction_frame (rank : nat) (maps : list (string * nat))
    (wanted : list string) :
  preserves sameInputs (pullFromReaction rank maps wanted).
Proof.
  apply preserves_bind; try apply _; [apply preserves_liftResult; apply _|].
  intros _. by apply preserves_modify.
Qed.

Lemma advance_frame (nodes : list nat) (tStart tEnd dtSub : Q) :
  preserves sameInputs (advance nodes tStart tEnd dtSub).
Proof.
  unfold advance. destruct (evenlyDivides _ _).
  - by apply preserves_modify.
  - apply preserves_raise; apply _.
Qed.

Lemma diffuse_frame (rank : nat) (dt : Q) :
  preserves sameInputs (diffuse rank dt).
Proof. by apply preserves_modify. Qed.

Lemma runWorkers_frame (body : nat -> M Store unit) (rank : nat)
    (l : list Store) :
  (forall r, preserves sameInputs (body r)) ->
  Forall2 sameInputs l (runWorkers body rank l).1.
Proof.
  intros Hb. revert rank. induction l as [|s l IH]; intros rank; simpl.
  - constructor.
  - pose proof (Hb rank s) as Hs.
    destruct (body rank s) as [s' [[]|e]]; simpl in *.
    + specialize (IH (S rank)).
      destruct (runWorkers body (S rank) l) as [l'' r]. simpl in *.
      by constructor.
    + constructor; [done|reflexivity].
Qed.

Lemma onWorkers_frame (body : nat -> M Store unit) :
  (forall r, preserves sameInputs (body r)) ->
  preserves sameWorldInputs (onWorkers body).
Proof.
  intros Hb w. unfold onWorkers, sameWorldInputs.
  pose proof (runWorkers_frame body 0 (workers w) Hb) as H.
  by destruct (runWorkers body 0 (workers w)).
Qed.

Lemma imap_frame (g : nat -> Store -> Store) (l : list Store) :
  (forall i s, sameInputs s (g i s)) -> Forall2 sameInputs l (imap g l).
Proof.
  revert g. induction l as [|s l IH]; intros g Hg; simpl.
  - constructor.
  - constructor; [apply Hg|]. apply IH. intros i s'. apply Hg.
Qed.

Lemma runPhase_frame (cfg : Config) (p : Phase) :
  preserves sameWorldInputs (runPhase cfg p).
Proof.
  unfold runPhase. apply preserves_bind; try apply _.
  - apply preserves_modify. intros w. unfold sameWorldInputs. simpl.
    reflexivity.
  - intros _. destruct p.
    + apply onWorkers_frame. intros r. apply pushToReaction_frame.
    + apply onWorkers_frame. intros r. apply advance_frame.
    + apply onWorkers_frame. intros r. apply pullFromReaction_frame.
    + apply onWorkers_frame. intros r. apply diffuse_frame.
    + apply onWorkers_frame. intros r. apply pushToReaction_frame.
    + apply preserves_modify. intros w. unfold sameWorldInputs. simpl.
      unfold reconcile. by apply imap_frame.
Qed.

(** A solve, finished or failed, leaves every worker's parameters and
    materials fields as they were. *)
Lemma Solve_frame (cfg : Config) : preserves sameWorldInputs (Solve cfg).
Proof.
  unfold Solve. destruct (controlLoopTimes cfg) as [[start stop] dt].
  apply preserves_bind; try apply _.
  - apply preserves_liftResult; apply _.
  - intros _. apply preserves_forEach; try apply _.
    intros k. unfold increment. apply preserves_forEach; try apply _.
    apply runPhase_frame.
Qed.

End EngineFrame.

Section EngineRuns.
Context {mesh : MeshProvider} {model : ReactionModel}
        {kernel : DiffusionKernel}.

Lemma checkMapped_Ok (names : list string) :
  checkMapped names = Ok tt ↔ ∀ v, v ∈ names → v ∈ modelVariables.
Proof.
  unfold checkMapped.
  destruct (filter (fun v => v ∉ modelVariables) names) as [|v0 l] eqn:E.
  - split; [|done]. intros _ v Hv.
    destruct (decide (v ∈ modelVariables)) as [|Hn]; [done|].
    assert (v ∈ filter (fun v => v ∉ modelVariables) names) as Hf
      by (by apply list_elem_of_filter).
    rewrite E in Hf. inversion Hf.
  - split; [done|]. intros H.
    assert (v0 ∈ filter (fun v => v ∉ modelVariables) names) as Hf
      by (rewrite E; left).
    apply list_elem_of_filter in Hf as [Hn Hin]. destruct Hn. by apply H.
Qed.


Lemma checkMapped_sub (names names' : list string) :
  names' ⊆ names → checkMapped names = Ok tt → checkMapped names' = Ok tt.
Proof. rewrite !checkMapped_Ok. intros Hsub H v Hv. apply H, Hsub, Hv. Qed.

Lemma runWorkers_pure (body : nat -> M Store unit)
    (g : nat -> Store -> Store) :
  (∀ rank s, body rank s = (g rank s, Ok tt)) →
  ∀ k l, runWorkers body k l = (imap (fun i => g (k + i)) l, Ok tt).
Proof.
  intros Hb k l. revert k. induction l as [|s l IH]; intros k; simpl; [done|].
  rewrite Hb, (IH (S k)). f_equal. f_equal.
  - f_equal. lia.
  - apply imap_ext. intros i x _. simpl. f_equal. lia.
Qed.

Lemma onWorkers_pure (body : nat -> M Store unit)
    (g : nat -> Store -> Store) (w : World) :
  (∀ rank s, body rank s = (g rank s, Ok tt)) →
  onWorkers body w = (mkWorld (imap g (workers w)) (phaseLog w), Ok tt).
Proof.
  intros Hb. unfold onWorkers. by rewrite (runWorkers_pure body g Hb).
Qed.

Lemma pushToReaction_Ok (rank : nat) (maps : list (nat * string))
    (source : Store -> Field) (s : Store) :
  checkMapped (maps.*2) = Ok tt →
  pushToReaction rank maps source s = (pushed rank maps source s, Ok tt).
Proof. intros H. unfold pushToReaction, bind, liftResult. by rewrite H. Qed.

Lemma pullFromReaction_Ok (rank : nat) (maps : list (string * nat))
    (wanted : list string) (s : Store) :
  checkMapped (maps.*1 ++ wanted) = Ok tt →
  pullFromReaction rank maps wanted s = (pulled rank maps wanted s, Ok tt).
Proof. intros H. unfold pullFromReaction, bind, liftResult. by rewrite H. Qed.

Lemma mappedNames_known (cfg : Config) :
  (parameterMaps (knownVariables cfg)).*2 ⊆ mappedNames cfg.
Proof.
  unfold parameterMaps, mappedNames. rewrite <- list_fmap_compose.
  intros v Hv. apply list_elem_of_fmap in Hv as (v' & -> & Hv').
  simpl. set_solver.
Qed.

Lemma mappedNames_pull (cfg : Config) :
  (cellMLToFieldMap cfg).*1 ++ wantedVariables cfg ⊆ mappedNames cfg.
Proof. unfold mappedNames. set_solver. Qed.

Lemma mappedNames_push (cfg : Config) :
  (fieldToCellMLMap cfg).*2 ⊆ mappedNames cfg.
Proof. unfold mappedNames. set_solver. Qed.

Lemma runPhase_Ok (cfg : Config) (p : Phase) (w : World) :
  checkMapped (mappedNames cfg) = Ok tt →
  phaseReady p →
  runPhase cfg p w =
  (mkWorld (phaseEffect cfg p (workers w)) (phaseLog w ++ [p]), Ok tt).
Proof.
  intros Hnames Hp. unfold runPhase, bind, note, modify.
  destruct p; simpl in *.
  - rewrite (onWorkers_pure _ (fun rank =>
      pushed rank (parameterMaps (knownVariables cfg))
             cellMLParametersField)); [done|].
    intros rank s. apply pushToReaction_Ok.
    eapply checkMapped_sub; [apply mappedNames_known | done].
  - rewrite (onWorkers_pure _ (fun rank =>
      integrated (ownedNodes rank) tStart tEnd dtSub)); [done|].
    intros rank s. unfold advance. by rewrite Hp.
  - rewrite (onWorkers_pure _ (fun rank =>
      pulled rank (cellMLToFieldMap cfg) (wantedVariables cfg))); [done|].
    intros rank s. apply pullFromReaction_Ok.
    eapply checkMapped_sub; [apply mappedNames_pull | done].
  - by rewrite (onWorkers_pure _ (fun rank => diffused rank dt)).
  - rewrite (onWorkers_pure _ (fun rank =>
      pushed rank (fieldToCellMLMap cfg) dependentField)); [done|].
    intros rank s. apply pushToReaction_Ok.
    eapply checkMapped_sub; [apply mappedNames_push | done].
  - done.
Qed.

Lemma forEach_Ok {A} (body : A -> M World unit)
    (effect : A -> list Store -> list Store) (logged : A -> list Phase)
    (l : list A) :
  (∀ a w, a ∈ l →
     body a w = (mkWorld (effect a (workers w)) (phaseLog w ++ logged a),
                 Ok tt)) →
  ∀ w, forEach body l w =
       (mkWorld (foldl (fun all a => effect a all) (workers w) l)
                (phaseLog w ++ (l ≫= logged)), Ok tt).
Proof.
  induction l as [|a l IH]; intros Hb w; simpl.
  - unfold ret. rewrite app_nil_r. by destruct w.
  - unfold bind. rewrite Hb by left.
    rewrite IH by (intros a' w' Ha'; apply Hb; by right).
    simpl. by rewrite app_assoc.
Qed.

End EngineRuns.

Section SolveRuns.
Context {mesh : MeshProvider} {model : ReactionModel}
        {kernel : DiffusionKernel}.

Lemma binary64_Qeq (x y : Q) : (x == y)%Q → binary64 x = binary64 y.
Proof. intros H. unfold binary64. by rewrite (Qred_complete x y H). Qed.

Lemma stepRatio_increment (dtSub t dt : Q) :
  stepRatio dtSub (t + dt - t)%Q = stepRatio dtSub dt.
Proof.
  unfold stepRatio. rewrite (binary64_Qeq (t + dt - t)%Q dt); [done|]. ring.
Qed.

Lemma evenlyDivides_increment (dtSub t dt : Q) :
  evenlyDivides dtSub dt = true →
  evenlyDivides dtSub (t + dt - t)%Q = true.
Proof. unfold evenlyDivides. by rewrite stepRatio_increment. Qed.

Lemma subSteps_increment (dtSub t dt : Q) :
  subSteps dtSub (t + dt - t)%Q = subSteps dtSub dt.
Proof. unfold subSteps. by rewrite stepRatio_increment. Qed.

Lemma schedule_ready (cfg : Config) (t dt : Q) :
  forallb (solverReady dt) (solvers cfg) = true →
  Forall phaseReady (schedule cfg t dt).
Proof.
  unfold schedule. induction (solvers cfg) as [|s l IH]; simpl.
  - constructor.
  - rewrite andb_true_iff. intros [Hs Hl]. apply Forall_app. split; [|auto].
    unfold solverPhases, solverReady in *.
    destruct (solverKind s); [|by repeat constructor].
    destruct (solverTimeStep s) as [dtSub|]; [|done].
    repeat constructor. simpl. by apply evenlyDivides_increment.
Qed.

Lemma validate_Ok (cfg : Config) (start stop dt : Q) :
  controlLoopTimes cfg = (start, stop, dt) →
  validate cfg = Ok tt →
  (start < stop)%Q ∧ (0 < dt)%Q ∧
  forallb (solverReady dt) (solvers cfg) = true ∧
  checkMapped (mappedNames cfg) = Ok tt.
Proof.
  unfold validate. intros ->.
  destruct (Qle_bool stop start) eqn:E1; [done|].
  destruct (Qle_bool dt (0 # 1)) eqn:E2; [done|]. simpl.
  destruct (forallb (solverReady dt) (solvers cfg)) eqn:E3; [|done]. simpl.
  intros H. repeat split; [| |done].
  - apply Qnot_le_lt. rewrite <- Qle_bool_iff. by rewrite E1.
  - apply Qnot_le_lt. rewrite <- Qle_bool_iff. by rewrite E2.
Qed.

Lemma bind_singleton {A} (l : list A) : l ≫= (fun a => [a]) = l.
Proof. induction l as [|a l IH]; [done|]. rewrite bind_cons. by rewrite IH. Qed.

Lemma increment_Ok (cfg : Config) (t dt : Q) (w : World) :
  checkMapped (mappedNames cfg) = Ok tt →
  forallb (solverReady dt) (solvers cfg) = true →
  increment cfg t dt w =
  (mkWorld (phasesEffect cfg (schedule cfg t dt) (workers w))
           (phaseLog w ++ schedule cfg t dt), Ok tt).
Proof.
  intros Hnames Hready. unfold increment, phasesEffect.
  rewrite (forEach_Ok (runPhase cfg) (phaseEffect cfg) (fun p => [p])).
  - by rewrite bind_singleton.
  - intros p w' Hp. apply runPhase_Ok; [done|].
    pose proof (schedule_ready cfg t dt Hready) as Hall.
    rewrite Forall_forall in Hall. by apply Hall.
Qed.

(** A valid configuration runs to the end of its interval: the solve
    returns, and the store and the log are those of its increments. *)
Lemma Solve_Ok (cfg : Config) (start stop dt : Q) (w : World) :
  controlLoopTimes cfg = (start, stop, dt) →
  validate cfg = Ok tt →
  Solve cfg w =
  (mkWorld
     (foldl (fun all k =>
               phasesEffect cfg (schedule cfg (timeAt start dt k) dt) all)
            (workers w) (seq 0 (numberOfIncrements start stop dt)))
     (phaseLog w ++
      (seq 0 (numberOfIncrements start stop dt) ≫=
         fun k => schedule cfg (timeAt start dt k) dt)),
   Ok tt).
Proof.
  intros Htimes Hvalid.
  destruct (validate_Ok cfg start stop dt Htimes Hvalid)
    as (_ & _ & Hready & Hnames).
  unfold Solve. rewrite Htimes. unfold bind at 1, liftResult.
  rewrite Hvalid.
  apply (forEach_Ok
           (fun k => increment cfg (timeAt start dt k) dt)
           (fun k => phasesEffect cfg (schedule cfg (timeAt start dt k) dt))
           (fun k => schedule cfg (timeAt start dt k) dt)).
  intros k w' _. by apply increment_Ok.
Qed.

(** A configuration that is refused is refused before anything is logged
    or written. *)
Lemma Solve_Raise (cfg : Config) (e : Error) (w : World) :
  validate cfg = Raise e → Solve cfg w = (w, Raise e).
Proof.
  intros H. unfold Solve.
  destruct (controlLoopTimes cfg) as [[start stop] dt].
  unfold bind, liftResult. by rewrite H.
Qed.

End SolveRuns.

(** ** Field Coupler and Partition Exchange *)

Section CouplerFacts.
Context {mesh : MeshProvider} {model : ReactionModel}.

Lemma assign_lookup `{Countable K} {V} (l : list (K * V)) (m : gmap K V)
    (k : K) :
  assign l m !! k =
  match list_to_map (M := gmap K V) l !! k with
  | Some x => Some x
  | None => m !! k
  end.
Proof.
  unfold assign. rewrite lookup_union.
  destruct (list_to_map l !! k), (m !! k); done.
Qed.








End CouplerFacts.

Section ExchangeFacts.
Context {mesh : MeshProvider} {model : ReactionModel}.

Lemma assign_idemp `{Countable K} {V} (l : list (K * V)) (m : gmap K V) :
  assign l (assign l m) = assign l m.
Proof.
  unfold assign. rewrite (assoc_L (∪)). by rewrite (idemp_L (∪)).
Qed.

(** Reconciling does not change the value an owner holds for its own
    node, so it does not change what the owner sends. *)
Lemma reconcile_owner_value (components : list nat) (all : list Store)
    (node c : nat) :
  reconcile components all !! NodeDomainGet node 1 ≫=
    (fun owner => dependentField owner !! (c, node)) =
  all !! NodeDomainGet node 1 ≫=
    (fun owner => dependentField owner !! (c, node)).
Proof.
  unfold reconcile. rewrite list_lookup_imap.
  destruct (all !! NodeDomainGet node 1) as [s|] eqn:Es; simpl; [|done].
  rewrite assign_lookup.
  destruct (list_to_map _ !! (c, node)) as [x|] eqn:E; [|done].
  apply elem_of_list_to_map_2 in E. unfold haloAssignments in E.
  apply list_elem_of_bind in E as (n' & E & _).
  apply list_elem_of_bind in E as (c' & E & _).
  destruct (all !! NodeDomainGet n' 1 ≫= _) as [x'|] eqn:E';
    [|by apply elem_of_nil in E].
  apply list_elem_of_singleton in E as [= -> -> ->].
  rewrite Es in E'. simpl in E'. by rewrite E'.
Qed.

Lemma haloAssignments_reconcile (components : list nat) (all : list Store)
    (rank : nat) :
  haloAssignments components (reconcile components all) rank =
  haloAssignments components all rank.
Proof.
  unfold haloAssignments.
  apply list_bind_ext; [|done]. intros node.
  apply list_bind_ext; [|done]. intros c.
  by rewrite reconcile_owner_value.
Qed.

Lemma reconcile_idempotent (components : list nat) (all : list Store) :
  reconcile components (reconcile components all) =
  reconcile components all.
Proof.
  apply list_eq. intros rank. unfold reconcile at 1.
  rewrite list_lookup_imap. rewrite haloAssignments_reconcile.
  unfold reconcile. rewrite list_lookup_imap.
  destruct (all !! rank) as [s|]; simpl; [|done].
  f_equal. unfold set_dependentField. simpl. f_equal.
  apply assign_idemp.
Qed.

End ExchangeFacts.

(** * Specification properties of the engine *)

Section EngineProperties.
Context {mesh : MeshProvider} {model : ReactionModel}
        {kernel : DiffusionKernel}.

(** C8: Partition Exchange is idempotent.  Reconciling twice in a row gives
    the stores of reconciling once, for any list of reconciled components
    and any stores; in particular every halo node keeps, after the second
    call, the value it had after the first, and the orchestrator's
    Reconcile phase is idempotent. *)
Theorem C8_reconcile_idempotent (components : list nat) (all : list Store) :
  reconcile components (reconcile components all) =
    reconcile components all ∧
  (∀ rank node c,
     node ∈ haloNodes rank →
     reconcile components (reconcile components all) !! rank ≫=
       (fun s => dependentField s !! (c, node)) =
     reconcile components all !! rank ≫=
       (fun s => dependentField s !! (c, node))) ∧
  (∀ cfg, phaseEffect cfg Reconcile (phaseEffect cfg Reconcile all) =
          phaseEffect cfg Reconcile all).
Proof.
  split; [|split].
  - apply reconcile_idempotent.
  - intros rank node c _. by rewrite reconcile_idempotent.
  - intros cfg. simpl. apply reconcile_idempotent.
Qed.


End EngineProperties.

(** ** What the reaction and exchange phases compute *)

Section PhaseFacts.
Context {mesh : MeshProvider} {model : ReactionModel}
        {kernel : DiffusionKernel}.





End PhaseFacts.

(** ** Solving in one call or in two *)

Section Reentrancy.
Context {mesh : MeshProvider} {model : ReactionModel}
        {kernel : DiffusionKernel}.

Lemma foldl_ext_in {A B} (f g : A -> B -> A) (a : A) (l : list B) :
  (∀ a' b, b ∈ l → f a' b = g a' b) → foldl f a l = foldl g a l.
Proof.
  revert a. induction l as [|b l IH]; intros a Hfg; [done|]. simpl.
  rewrite Hfg by left. apply IH. intros a' b' Hb'. apply Hfg. by right.
Qed.

Lemma foldl_seq_shift {A} (f : A -> nat -> A) (a : A) (j n : nat) :
  foldl f a (seq j n) = foldl (fun a' k => f a' (j + k)) a (seq 0 n).
Proof.
  replace (seq j n) with (Nat.add j <$> seq 0 n)
    by (rewrite fmap_add_seq; f_equal; lia).
  generalize (seq 0 n). intros l. revert a.
  induction l as [|k l IH]; intros a; [done|]. simpl. apply IH.
Qed.

Lemma integrateNode_Qeq (n : nat) (t t' dt : Q) (x : gmap string Q) :
  (∀ t t' d x, (t == t')%Q → modelStep t d x = modelStep t' d x) →
  (t == t')%Q →
  integrateNode n t dt x = integrateNode n t' dt x.
Proof.
  intros Hmodel. revert t t' x.
  induction n as [|n IH]; intros t t' x Ht; [done|]. simpl.
  rewrite (Hmodel t t' dt x Ht). apply IH. by rewrite Ht.
Qed.

Lemma integrated_Qeq (nodes : list nat) (t t' dt dtSub : Q) (s : Store) :
  (∀ t t' d x, (t == t')%Q → modelStep t d x = modelStep t' d x) →
  (t == t')%Q →
  integrated nodes t (t + dt)%Q dtSub s =
  integrated nodes t' (t' + dt)%Q dtSub s.
Proof.
  intros Hmodel Ht. unfold integrated, set_reactionState. f_equal. f_equal.
  apply list_fmap_ext. intros i node _. f_equal.
  rewrite !subSteps_increment. by apply integrateNode_Qeq.
Qed.

Lemma godunov_effect_Qeq (cfg : Config) (dtSub t t' dt : Q)
    (all : list Store) :
  (∀ t t' d x, (t == t')%Q → modelStep t d x = modelStep t' d x) →
  solvers cfg =
    [mkSolver DAESolver (Some dtSub); mkSolver DynamicSolver None] →
  (t == t')%Q →
  phasesEffect cfg (schedule cfg t dt) all =
  phasesEffect cfg (schedule cfg t' dt) all.
Proof.
  intros Hmodel Hs Ht. unfold schedule. rewrite Hs. simpl.
  do 4 f_equal. apply imap_ext. intros rank s _.
  by apply integrated_Qeq.
Qed.

Lemma timeAt_second (k : nat) :
  (timeAt stimStop pdeTimeStep k == timeAt (0 # 1) pdeTimeStep (200 + k))%Q.
Proof.
  unfold timeAt, stimStop, pdeTimeStep.
  rewrite Nat2Z.inj_add, inject_Z_plus. simpl (inject_Z (Z.of_nat 200)).
  ring.
Qed.

End Reentrancy.

Section OrchestratorProperties.
Context {mesh : MeshProvider} {model : ReactionModel}
        {kernel : DiffusionKernel}.


Lemma firstConfig_ready :
  forallb (solverReady pdeTimeStep) (solvers firstConfig) = true.
Proof. vm_compute. reflexivity. Qed.

Lemma validate_times (start stop dt : Q) :
  (start < stop)%Q → (0 < dt)%Q →
  Qle_bool stop start || Qle_bool dt (0 # 1) = false.
Proof.
  intros Hlt Hpos.
  assert (Qle_bool stop start = false) as ->.
  { apply not_true_is_false. rewrite Qle_bool_iff. by apply Qlt_not_le. }
  assert (Qle_bool dt (0 # 1) = false) as ->; [|done].
  apply not_true_is_false. rewrite Qle_bool_iff. by apply Qlt_not_le.
Qed.

(** The script's configuration stays valid when only its control loop
    times change and stay well formed. *)
Lemma validate_TimesSet (start stop : Q) :
  validate firstConfig = Ok tt → (start < stop)%Q →
  validate (TimesSet start stop pdeTimeStep firstConfig) = Ok tt.
Proof.
  intros Hvalid Hlt.
  destruct (validate_Ok firstConfig (0 # 1)%Q stimStop pdeTimeStep eq_refl
              Hvalid) as (_ & _ & _ & Hnames).
  unfold validate. cbn [controlLoopTimes TimesSet].
  rewrite validate_times by done.
  change (solvers (TimesSet start stop pdeTimeStep firstConfig))
    with (solvers firstConfig).
  rewrite firstConfig_ready. exact Hnames.
Qed.


(** C2: a DAE sub-step that does not divide the PDE step a whole number of
    times makes the solve raise a configuration error with the world, log
    included, exactly as it was, and a configuration that passes the check
    runs to the end: the error never comes up later.  With the script's
    sub-step 0.00001 a PDE step of 0.00015 is refused (the ratio of the two
    binary64 values is not a whole number); the script's own PDE step 0.001
    has ratio 100, passes, and the first solve returns with all its
    increments logged. *)
Theorem C2_substep_must_divide :
  (∀ cfg start stop dt dtSub w,
     controlLoopTimes cfg = (start, stop, dt) →
     (start < stop)%Q → (0 < dt)%Q →
     mkSolver DAESolver (Some dtSub) ∈ solvers cfg →
     evenlyDivides dtSub dt = false →
     Solve cfg w =
     (w, Raise (ConfigurationError
                  "ODE sub-step does not evenly divide the PDE step"))) ∧
  (∀ cfg start stop dt w,
     controlLoopTimes cfg = (start, stop, dt) →
     validate cfg = Ok tt →
     ∃ w', Solve cfg w = (w', Ok tt)) ∧
  evenlyDivides (1 # 100000) (15 # 100000) = false ∧
  (∀ start stop w,
     (start < stop)%Q →
     Solve (TimesSet start stop (15 # 100000) firstConfig) w =
     (w, Raise (ConfigurationError
                  "ODE sub-step does not evenly divide the PDE step"))) ∧
  evenlyDivides odeTimeStep pdeTimeStep = true ∧
  subSteps odeTimeStep pdeTimeStep = 100 ∧
  (∀ w, (∀ v, v ∈ mappedNames firstConfig → v ∈ modelVariables) →
        ∃ w', Solve firstConfig w = (w', Ok tt) ∧
              phaseLog w' =
              phaseLog w ++
              (seq 0 200 ≫= fun k =>
                 schedule firstConfig (timeAt (0 # 1) pdeTimeStep k)
                          pdeTimeStep)).
Proof.
  assert (∀ cfg start stop dt dtSub w,
     controlLoopTimes cfg = (start, stop, dt) →
     (start < stop)%Q → (0 < dt)%Q →
     mkSolver DAESolver (Some dtSub) ∈ solvers cfg →
     evenlyDivides dtSub dt = false →
     Solve cfg w =
     (w, Raise (ConfigurationError
                  "ODE sub-step does not evenly divide the PDE step")))
    as Hrule.
  { intros cfg start stop dt dtSub w Htimes Hlt Hpos Hin Hdiv.
    apply Solve_Raise. unfold validate. rewrite Htimes.
    rewrite validate_times by done.
    assert (forallb (solverReady dt) (solvers cfg) = false) as ->; [|done].
    apply not_true_is_false. rewrite forallb_forall. intros Hall.
    apply list_elem_of_In in Hin. specialize (Hall _ Hin).
    unfold solverReady in Hall. simpl in Hall. congruence. }
  assert (evenlyDivides (1 # 100000) (15 # 100000) = false) as Hexample
    by (vm_compute; reflexivity).
  split; [exact Hrule|]. split; [|split; [exact Hexample|split; [|split;
    [by vm_compute|split; [by vm_compute|]]]]].
  - intros cfg start stop dt w Htimes Hvalid. eexists.
    by apply (Solve_Ok cfg start stop dt).
  - intros start stop w Hlt.
    apply (Hrule _ start stop (15 # 100000)%Q (1 # 100000)%Q);
      [done|done|done| |done].
    apply list_elem_of_In. left. reflexivity.
  - intros w Hnames.
    assert (validate firstConfig = Ok tt) as Hvalid.
    { unfold validate. cbn [controlLoopTimes firstConfig].
      rewrite validate_times by done.
      rewrite firstConfig_ready. by apply checkMapped_Ok. }
    eexists. split.
    + by apply (Solve_Ok firstConfig (0 # 1)%Q stimStop pdeTimeStep).
    + reflexivity.
Qed.

(** The first solve, finished or failed, leaves every worker with the
    parameters field it was set up with. *)
Lemma first_solve_parameters (N rank : nat) (s1 : Store) :
  workers (Solve firstConfig (initialWorld N)).1 !! rank = Some s1 →
  rank < N ∧
  cellMLParametersField s1 = cellMLParametersField (setUp rank).
Proof.
  intros Hs1.
  pose proof (Solve_frame firstConfig (initialWorld N)) as Hframe.
  unfold sameWorldInputs in Hframe.
  destruct (Forall2_lookup_r _ _ _ _ _ Hframe Hs1) as (s0 & Hs0 & Hp & _).
  apply initialWorld_lookup in Hs0 as [-> Hlt]. done.
Qed.

(** C3: the stimulus lives in two orchestrator-level phases.  The loops
    range over nodes 1..13; before the first solve a worker's parameters
    field holds stimValue in the stimulus component on exactly the nodes of
    that range it owns, the second loop puts 0.0 on the same nodes, and
    neither loop writes anything else.  In the run the first solve starts
    from these stores; when it has returned every worker, as many as
    before, holds 0.0 on the same nodes and otherwise the parameters it was
    set up with, and the second solve starts from there.  The two
    configurations differ only in the control loop times, so that every
    phase runs the same in both. *)
Theorem C3_stimulus_two_phases (N rank : nat) :
  stimulusRange = [1; 2; 3; 4; 5; 6; 7; 8; 9; 10; 11; 12; 13] ∧
  (∀ node, node ∈ stimulusRange ↔
           1 ≤ node ≤ (numberOfXElements + 1) / 2) ∧
  stimValue = ((-5000) # 1)%Q ∧
  (∀ c node,
     cellMLParametersField (setUp rank) !! (c, node) =
     if decide (c = stimComponent ∧
                node ∈ stimulusRange ∧ NodeDomainGet node 1 = rank)
     then Some stimValue
     else cellMLParametersField
            (setInitialCm rank (setInitialVm rank
               (setMaterials rank (createStore rank)))) !! (c, node)) ∧
  (∀ s c node,
     cellMLParametersField (stimulusOff rank s) !! (c, node) =
     if decide (c = stimComponent ∧
                node ∈ stimulusRange ∧ NodeDomainGet node 1 = rank)
     then Some (0 # 1)%Q
     else cellMLParametersField s !! (c, node)) ∧
  (∀ value s,
     materialsField (stimulusLoop rank value s) = materialsField s ∧
     dependentField (stimulusLoop rank value s) = dependentField s ∧
     cellMLIntermediateField (stimulusLoop rank value s) =
       cellMLIntermediateField s ∧
     reactionState (stimulusLoop rank value s) = reactionState s) ∧
  main N = (Solve firstConfig ;; turnStimulusOff ;; Solve secondConfig)
             (initialWorld N) ∧
  secondConfig = TimesSet stimStop timeStop pdeTimeStep firstConfig ∧
  controlLoopTimes firstConfig = ((0 # 1)%Q, stimStop, pdeTimeStep) ∧
  controlLoopTimes secondConfig = (stimStop, timeStop, pdeTimeStep) ∧
  (∀ p, runPhase secondConfig p = runPhase firstConfig p) ∧
  (∀ t dt, schedule secondConfig t dt = schedule firstConfig t dt) ∧
  (∀ r s0, workers (initialWorld N) !! r = Some s0 → s0 = setUp r) ∧
  main N =
    match Solve firstConfig (initialWorld N) with
    | (w1, Ok _) => Solve secondConfig (turnStimulusOff w1).1
    | (w1, Raise e) => (w1, Raise e)
    end ∧
  length
    (workers (turnStimulusOff (Solve firstConfig (initialWorld N)).1).1) =
    N ∧
  (∀ r s2,
     workers (turnStimulusOff (Solve firstConfig (initialWorld N)).1).1
       !! r = Some s2 →
     ∀ c node,
       cellMLParametersField s2 !! (c, node) =
       if decide (c = stimComponent ∧
                  node ∈ stimulusRange ∧ NodeDomainGet node 1 = r)
       then Some (0 # 1)%Q
       else cellMLParametersField (setUp r) !! (c, node)).
Proof.
  split; [done|]. split; [apply elem_of_stimulusRange|]. split; [done|].
  split; [|split; [|split; [|split; [done|split; [done|split; [done|
    split; [done|split; [done|split; [done|split; [|split; [|split]]]]]]]]]]].
  - intros c node. unfold setUp. rewrite stimulusLoop_parameters.
    apply decide_ext. rewrite elem_of_stimulusWrites. tauto.
  - intros s c node. unfold stimulusOff. rewrite stimulusLoop_parameters.
    apply decide_ext. rewrite elem_of_stimulusWrites. tauto.
  - intros value s. apply stimulusLoop_frame.
  - intros r s0 Hs0. by apply initialWorld_lookup in Hs0 as [-> _].
  - unfold main, bind.
    by destruct (Solve firstConfig (initialWorld N)) as [w1 [[]|e]].
  - unfold turnStimulusOff, modify. cbn [fst workers].
    rewrite length_imap.
    pose proof (Solve_frame firstConfig (initialWorld N)) as Hframe.
    unfold sameWorldInputs in Hframe.
    rewrite <- (Forall2_length _ _ _ Hframe).
    unfold initialWorld. cbn [workers].
    by rewrite length_fmap, length_seq.
  - intros r s2. unfold turnStimulusOff, modify. cbn [fst workers].
    rewrite list_lookup_imap. intros Hs2.
    destruct (workers (Solve firstConfig (initialWorld N)).1 !! r)
      as [s1|] eqn:Hs1; [|done].
    simpl in Hs2. injection Hs2 as <-.
    destruct (first_solve_parameters N r s1 Hs1) as [_ Hp].
    intros c node. unfold stimulusOff. rewrite stimulusLoop_parameters.
    rewrite Hp. apply decide_ext. rewrite elem_of_stimulusWrites. tauto.
Qed.

(** C4: the orchestrator's run is re-entrant.  A valid solve with any
    interval and step returns the stores it was given taken through its
    increments, and adds its phases to the log it was given; nothing is
    reset.  In the script the second solve therefore runs on the stores the
    first solve left: between the calls Reaction State and the materials,
    dependent and intermediate fields pass unchanged, and only the
    stimulus component of the parameters field, which the script turns off,
    differs.  Solving [0, stimStop] and then [stimStop, timeStop] with
    nothing changed in between gives the stores of solving [0, timeStop] in
    one call, for a model whose step depends on the time and not on the
    way the time is written. *)
Theorem C4_second_solve_continues (N : nat) :
  validate firstConfig = Ok tt →
  (∀ t t' d x, (t == t')%Q → modelStep t d x = modelStep t' d x) →
  (∀ cfg start stop dt w,
     controlLoopTimes cfg = (start, stop, dt) →
     validate cfg = Ok tt →
     Solve cfg w =
     (mkWorld
        (foldl (fun all k =>
                  phasesEffect cfg (schedule cfg (timeAt start dt k) dt) all)
               (workers w) (seq 0 (numberOfIncrements start stop dt)))
        (phaseLog w ++
         (seq 0 (numberOfIncrements start stop dt) ≫=
            fun k => schedule cfg (timeAt start dt k) dt)),
      Ok tt)) ∧
  (∃ w1 w2,
     Solve firstConfig (initialWorld N) = (w1, Ok tt) ∧
     Solve secondConfig
       (mkWorld (imap stimulusOff (workers w1)) (phaseLog w1)) =
       (w2, Ok tt) ∧
     main N = (w2, Ok tt) ∧
     workers w2 =
       foldl (fun all k =>
                phasesEffect secondConfig
                  (schedule secondConfig (timeAt stimStop pdeTimeStep k)
                            pdeTimeStep) all)
             (imap stimulusOff (workers w1)) (seq 0 500) ∧
     phaseLog w2 =
       phaseLog w1 ++
       (seq 0 500 ≫= fun k =>
          schedule secondConfig (timeAt stimStop pdeTimeStep k)
                   pdeTimeStep)) ∧
  (∀ rank s,
     materialsField (stimulusOff rank s) = materialsField s ∧
     dependentField (stimulusOff rank s) = dependentField s ∧
     cellMLIntermediateField (stimulusOff rank s) =
       cellMLIntermediateField s ∧
     reactionState (stimulusOff rank s) = reactionState s ∧
     ∀ c node,
       cellMLParametersField (stimulusOff rank s) !! (c, node) =
       if decide (c = stimComponent ∧ node ∈ stimulusWrites rank)
       then Some (0 # 1)%Q
       else cellMLParametersField s !! (c, node)) ∧
  (∀ w,
     workers (Solve secondConfig (Solve firstConfig w).1).1 =
     workers (Solve (TimesSet (0 # 1) timeStop pdeTimeStep firstConfig)
                    w).1).
Proof.
  intros Hvalid Hmodel.
  assert (validate secondConfig = Ok tt) as Hvalid2
    by (by apply validate_TimesSet).
  assert (validate (TimesSet (0 # 1) timeStop pdeTimeStep firstConfig)
          = Ok tt) as Hvalid3 by (by apply validate_TimesSet).
  split; [|split; [|split]].
  - intros cfg start stop dt w Htimes Hv. by apply Solve_Ok.
  - eexists. eexists.
    split; [by apply (Solve_Ok firstConfig (0 # 1)%Q stimStop pdeTimeStep)|].
    split;
      [by apply (Solve_Ok secondConfig stimStop timeStop pdeTimeStep)|].
    split; [|split; reflexivity].
    unfold main, bind, turnStimulusOff, modify.
    rewrite (Solve_Ok firstConfig (0 # 1)%Q stimStop pdeTimeStep) by done.
    cbn [workers phaseLog].
    by rewrite (Solve_Ok secondConfig stimStop timeStop pdeTimeStep).
  - intros rank s. unfold stimulusOff.
    destruct (stimulusLoop_frame rank (0 # 1)%Q s) as (-> & -> & -> & ->).
    repeat split. intros c node. apply stimulusLoop_parameters.
  - intros w.
    rewrite (Solve_Ok firstConfig (0 # 1)%Q stimStop pdeTimeStep) by done.
    rewrite (Solve_Ok secondConfig stimStop timeStop pdeTimeStep) by done.
    rewrite (Solve_Ok (TimesSet (0 # 1) timeStop pdeTimeStep firstConfig)
               (0 # 1)%Q timeStop pdeTimeStep) by done.
    cbn [fst workers].
    change (numberOfIncrements (0 # 1) stimStop pdeTimeStep) with 200.
    change (numberOfIncrements stimStop timeStop pdeTimeStep) with 500.
    change (numberOfIncrements (0 # 1) timeStop pdeTimeStep)
      with (200 + 500).
    rewrite seq_app, foldl_app. rewrite (foldl_seq_shift _ _ (0 + 200) 500).
    apply foldl_ext_in. intros all k _.
    apply (godunov_effect_Qeq firstConfig odeTimeStep); [done|done|].
    apply timeAt_second.
Qed.

End OrchestratorProperties.

(** * The properties on the stand-in mesh, model and kernel *)

Lemma standIn_valid :
  validate (model := standInModel) firstConfig = Ok tt.
Proof. vm_compute. reflexivity. Qed.


Lemma C10_capacitance_consistent_witness :
  cmComponent (model := standInModel) ≠ stimComponent (model := standInModel)
  ∧ 1 ∈ localNodes (mesh := singleDomain) 0
  ∧ materialsField (setUp (mesh := singleDomain) (model := standInModel) 0)
      !! (2, 1) = Some Cm
  ∧ cellMLParametersField
      (setUp (mesh := singleDomain) (model := standInModel) 0)
      !! (cmComponent (model := standInModel), 1) = Some Cm.
Proof.
  assert (cmComponent (model := standInModel) ≠
          stimComponent (model := standInModel)) as Hne
    by (vm_compute; lia).
  assert (1 ∈ localNodes (mesh := singleDomain) 0) as Hin.
  { unfold localNodes. apply elem_of_app. left.
    apply elem_of_ownedNodes. split; [vm_compute; lia | reflexivity]. }
  split; [exact Hne|]. split; [exact Hin|].
  destruct (C10_capacitance_consistent (mesh := singleDomain)
              (model := standInModel) 0 1 Hne Hin) as (H1 & H2 & _).
  split; [exact H1 | exact H2].
Defined.

Lemma C9_single_writer_witness :
  (∀ n, NodeDomainGet (MeshProvider := twoDomains) n 1 < 2) ∧
  8 ∈ stimulusRange ∧
  filter (fun rank => 8 ∈ stimulusWrites (mesh := twoDomains) rank)
         (seq 0 2) = [1].
Proof.
  assert (∀ n, NodeDomainGet (MeshProvider := twoDomains) n 1 < 2) as Hdom.
  { intros n. simpl. case_decide; lia. }
  assert (8 ∈ stimulusRange) as Hin.
  { apply elem_of_stimulusRange. vm_compute. lia. }
  split; [exact Hdom|]. split; [exact Hin|].
  exact (proj1 (C9_single_writer (mesh := twoDomains)
                  (model := standInModel) 2 8 Hdom Hin)).
Defined.


Lemma C4_second_solve_continues_witness :
  validate (model := standInModel) firstConfig = Ok tt ∧
  (∀ t t' d x, (t == t')%Q →
     modelStep (ReactionModel := standInModel) t d x =
     modelStep (ReactionModel := standInModel) t' d x) ∧
  ∀ w,
    workers (Solve (mesh := singleDomain) (model := standInModel)
                   (kernel := standInKernel) secondConfig
               (Solve (mesh := singleDomain) (model := standInModel)
                      (kernel := standInKernel) firstConfig w).1).1 =
    workers (Solve (mesh := singleDomain) (model := standInModel)
                   (kernel := standInKernel)
                   (TimesSet (0 # 1) timeStop pdeTimeStep firstConfig) w).1.
Proof.
  assert (∀ t t' d x, (t == t')%Q →
            modelStep (ReactionModel := standInModel) t d x =
            modelStep (ReactionModel := standInModel) t' d x) as Hmodel
    by (intros t t' d x _; reflexivity).
  split; [exact standIn_valid|]. split; [exact Hmodel|].
  exact (proj2 (proj2 (proj2
           (C4_second_solve_continues (mesh := singleDomain)
              (model := standInModel) (kernel := standInKernel) 1
              standIn_valid Hmodel)))).
Defined.

(** * Further properties of the script *)

Section ScriptExtras.
Context {mesh : MeshProvider} {model : ReactionModel}.

Lemma Store_eq (s s' : Store) :
  materialsField s = materialsField s' →
  dependentField s = dependentField s' →
  cellMLParametersField s = cellMLParametersField s' →
  cellMLIntermediateField s = cellMLIntermediateField s' →
  reactionState s = reactionState s' →
  s = s'.
Proof. destruct s, s'. simpl. by intros -> -> -> -> ->. Qed.

(** Lines 155-160: at the first solve the materials field holds Am, Cm and
    the conductivity twice (components 3 and 4) on every node the worker
    holds; the four initialisations do not disturb one another, and the
    script sets no other component and no other node. *)
Theorem setUp_materials (rank c node : nat) :
  materialsField (setUp rank) !! (c, node) =
  if decide (node ∈ localNodes rank ∧ 1 ≤ c ≤ 4)
  then Some (match c with
             | 1 => Am
             | 2 => Cm
             | _ => conductivity
             end)
  else materialsField (createStore rank) !! (c, node).
Proof.
  unfold setUp.
  destruct (stimulusLoop_frame rank stimValue
              (setInitialCm rank (setInitialVm rank
                 (setMaterials rank (createStore rank))))) as (-> & _).
  simpl. rewrite !ComponentValuesInitialise_lookup.
  repeat case_decide; destruct_and?; simplify_eq; try done.
  all: exfalso.
  all: try (assert (c = 1 ∨ c = 2 ∨ c = 3 ∨ c = 4) by lia).
  all: naive_solver lia.
Qed.

(** Lines 250-253 and 313-317: a stimulus loop overwrites what an earlier
    one wrote and leaves no trace of the earlier value; in particular the
    loop is idempotent. *)
Theorem stimulusLoop_overwrites (rank : nat) (v1 v2 : Q) (s : Store) :
  stimulusLoop rank v2 (stimulusLoop rank v1 s) = stimulusLoop rank v2 s.
Proof.
  destruct (stimulusLoop_frame rank v2 (stimulusLoop rank v1 s))
    as (H1 & H2 & H3 & H4).
  destruct (stimulusLoop_frame rank v1 s) as (G1 & G2 & G3 & G4).
  destruct (stimulusLoop_frame rank v2 s) as (K1 & K2 & K3 & K4).
  apply Store_eq; try congruence.
  apply map_eq. intros [c n]. rewrite !stimulusLoop_parameters.
  by case_decide.
Qed.

(** Lines 19, 244 and 250: whatever the element counts, the stimulus range
    has floor((nx+1)/2) distinct nodes, all among the first nx+1 node
    numbers and so within the mesh; an odd number of row nodes leaves the
    middle node out, and a mesh of one row node less than two has no
    stimulated node at all. *)
Theorem stimulusRangeOf_half_row (nx ny : nat) :
  stimulusRange = stimulusRangeOf numberOfXElements ∧
  lastNodeNumber = lastNodeNumberOf numberOfXElements numberOfYElements ∧
  length (stimulusRangeOf nx) = (nx + 1) / 2 ∧
  NoDup (stimulusRangeOf nx) ∧
  (∀ node, node ∈ stimulusRangeOf nx →
     firstNodeNumber ≤ node ≤ nx + 1 ∧ node ≤ lastNodeNumberOf nx ny) ∧
  2 * length (stimulusRangeOf nx) ≤ nx + 1 ≤
    2 * length (stimulusRangeOf nx) + 1 ∧
  (stimulusRangeOf nx = [] ↔ nx = 0).
Proof.
  assert (length (stimulusRangeOf nx) = (nx + 1) / 2) as Hlen.
  { unfold stimulusRangeOf, range. rewrite length_seq. lia. }
  pose proof (Nat.div_mod_eq (nx + 1) 2) as Hdiv.
  assert ((nx + 1) mod 2 < 2) as Hmod by (apply Nat.mod_upper_bound; lia).
  repeat split; try done.
  - unfold stimulusRangeOf, range. apply NoDup_seq.
  - apply elem_of_range in H. unfold firstNodeNumber. lia.
  - apply elem_of_range in H. lia.
  - apply elem_of_range in H. unfold lastNodeNumberOf. nia.
  - lia.
  - lia.
  - intros Hnil. rewrite Hnil in Hlen. cbn [length] in Hlen. lia.
  - intros ->. reflexivity.
Qed.

Lemma filter_all (P : nat -> Prop) `{!∀ x, Decision (P x)} (l : list nat) :
  (∀ x, x ∈ l → P x) → filter P l = l.
Proof.
  induction l as [|a l IH]; intros Hall; [done|].
  rewrite filter_cons_True by (apply Hall; left).
  f_equal. apply IH. intros x Hx. apply Hall. by right.
Qed.

Lemma filter_none (P : nat -> Prop) `{!∀ x, Decision (P x)} (l : list nat) :
  (∀ x, x ∈ l → ¬ P x) → filter P l = [].
Proof.
  induction l as [|a l IH]; intros Hall; [done|].
  rewrite filter_cons_False by (apply Hall; left).
  apply IH. intros x Hx. apply Hall. by right.
Qed.

Lemma filter_below_split (f : nat -> nat) (N : nat) (l : list nat) :
  filter (fun x => f x < S N) l ≡ₚ
  filter (fun x => f x < N) l ++ filter (fun x => f x = N) l.
Proof.
  induction l as [|a l IH]; [done|].
  destruct (decide (f a < N)) as [Hlt|Hge].
  - rewrite (filter_cons_True (fun x => f x < S N)) by lia.
    rewrite (filter_cons_True (fun x => f x < N)) by done.
    rewrite (filter_cons_False (fun x => f x = N)) by lia.
    simpl. by rewrite IH.
  - destruct (decide (f a = N)) as [Heq|Hne].
    + rewrite (filter_cons_True (fun x => f x < S N)) by lia.
      rewrite (filter_cons_False (fun x => f x < N)) by done.
      rewrite (filter_cons_True (fun x => f x = N)) by done.
      rewrite IH. apply Permutation_middle.
    + rewrite (filter_cons_False (fun x => f x < S N)) by lia.
      rewrite (filter_cons_False (fun x => f x < N)) by done.
      rewrite (filter_cons_False (fun x => f x = N)) by done.
      exact IH.
Qed.

Lemma filter_by_rank (f : nat -> nat) (N : nat) (l : list nat) :
  (seq 0 N ≫= fun r => filter (fun x => f x = r) l) ≡ₚ
  filter (fun x => f x < N) l.
Proof.
  induction N as [|N IH].
  - simpl. rewrite filter_none; [done|]. intros x _. lia.
  - rewrite seq_S, bind_app, IH. simpl. rewrite app_nil_r.
    by rewrite filter_below_split.
Qed.

(** Lines 250-253: over the workers 0..N-1 of a run, the loops' writes are
    the stimulus range, each node once; a loop writes thirteen values in
    all, however the mesh is decomposed. *)
Theorem stimulusWrites_partition (N : nat) :
  (∀ n, NodeDomainGet n 1 < N) →
  (seq 0 N ≫= stimulusWrites) ≡ₚ stimulusRange ∧
  length (seq 0 N ≫= stimulusWrites) = 13.
Proof.
  intros Hdom.
  assert ((seq 0 N ≫= stimulusWrites) ≡ₚ stimulusRange) as Hperm.
  { unfold stimulusWrites.
    rewrite (filter_by_rank (fun node => NodeDomainGet node 1) N).
    rewrite filter_all; [done|]. intros x _. apply Hdom. }
  split; [exact Hperm|]. by rewrite Hperm.
Qed.

(** Lines 251-253: a worker in whose domain no node of the stimulus range
    lies passes through the loop without changing its store. *)
Theorem stimulusLoop_not_owner (rank : nat) (value : Q) (s : Store) :
  (∀ node, node ∈ stimulusRange → NodeDomainGet node 1 ≠ rank) →
  stimulusLoop rank value s = s.
Proof.
  intros Hnot. rewrite stimulusLoop_writes.
  assert (stimulusWrites rank = []) as ->; [|done].
  unfold stimulusWrites. apply filter_none. intros x Hx. by apply Hnot.
Qed.

(** Lines 250-253: a worker whose domain holds the whole stimulus range, as
    the only worker of a serial run does, writes the value on each of the
    nodes 1 to 13. *)
Theorem stimulusLoop_sole_owner (rank : nat) (value : Q) (s : Store) :
  (∀ node, node ∈ stimulusRange → NodeDomainGet node 1 = rank) →
  stimulusWrites rank = stimulusRange ∧
  ∀ node, 1 ≤ node ≤ 13 →
    cellMLParametersField (stimulusLoop rank value s)
      !! (stimComponent, node) = Some value.
Proof.
  intros Hall.
  assert (stimulusWrites rank = stimulusRange) as Hw.
  { unfold stimulusWrites. by apply filter_all. }
  split; [exact Hw|]. intros node Hnode.
  rewrite stimulusLoop_parameters, Hw. rewrite decide_True; [done|].
  split; [done|]. apply elem_of_stimulusRange.
  change ((numberOfXElements + 1) / 2) with 13. lia.
Qed.

(** Lines 244 and 250-253: every write of a stimulus loop lands on a node
    of the mesh that the writing worker owns, hence on a node whose
    parameters the worker set up. *)
Theorem stimulusWrites_owned (rank node : nat) :
  node ∈ stimulusWrites rank →
  node ∈ ownedNodes rank ∧ node ∈ localNodes rank ∧
  firstNodeNumber ≤ node ≤ lastNodeNumber.
Proof.
  intros [Hrange Hdom]%elem_of_stimulusWrites.
  apply elem_of_stimulusRange in Hrange.
  assert (1 ≤ node ≤ lastNodeNumber) as Hb.
  { change ((numberOfXElements + 1) / 2) with 13 in Hrange.
    change lastNodeNumber with 364. lia. }
  assert (node ∈ ownedNodes rank) as Ho by (by apply elem_of_ownedNodes).
  split; [exact Ho|]. split; [|exact Hb].
  unfold localNodes. apply elem_of_app. by left.
Qed.

End ScriptExtras.

(** * The further properties on the stand-in meshes *)

Lemma twoDomains_below (n : nat) :
  NodeDomainGet (MeshProvider := twoDomains) n 1 < 2.
Proof. simpl. case_decide; lia. Qed.

Lemma stimulusWrites_partition_witness :
  (∀ n, NodeDomainGet (MeshProvider := twoDomains) n 1 < 2) ∧
  (seq 0 2 ≫= stimulusWrites (mesh := twoDomains)) ≡ₚ stimulusRange ∧
  length (seq 0 2 ≫= stimulusWrites (mesh := twoDomains)) = 13.
Proof.
  split; [exact twoDomains_below|].
  exact (stimulusWrites_partition (mesh := twoDomains) 2 twoDomains_below).
Defined.

Lemma stimulusLoop_not_owner_witness :
  (∀ node, node ∈ stimulusRange →
     NodeDomainGet (MeshProvider := twoDomains) node 1 ≠ 2) ∧
  stimulusLoop (mesh := twoDomains) (model := standInModel) 2 stimValue
    (createStore (mesh := twoDomains) (model := standInModel) 2) =
  createStore (mesh := twoDomains) (model := standInModel) 2.
Proof.
  assert (∀ node, node ∈ stimulusRange →
            NodeDomainGet (MeshProvider := twoDomains) node 1 ≠ 2) as Hnot.
  { intros node _. pose proof (twoDomains_below node). lia. }
  split; [exact Hnot|].
  exact (stimulusLoop_not_owner (mesh := twoDomains) (model := standInModel)
           2 stimValue _ Hnot).
Defined.

Lemma stimulusLoop_sole_owner_witness :
  (∀ node, node ∈ stimulusRange →
     NodeDomainGet (MeshProvider := singleDomain) node 1 = 0) ∧
  stimulusWrites (mesh := singleDomain) 0 = stimulusRange ∧
  cellMLParametersField
    (stimulusLoop (mesh := singleDomain) (model := standInModel) 0 stimValue
       (createStore (mesh := singleDomain) (model := standInModel) 0))
    !! (stimComponent (model := standInModel), 13) = Some stimValue.
Proof.
  assert (∀ node, node ∈ stimulusRange →
            NodeDomainGet (MeshProvider := singleDomain) node 1 = 0) as Hall
    by (intros node _; reflexivity).
  split; [exact Hall|].
  destruct (stimulusLoop_sole_owner (mesh := singleDomain)
              (model := standInModel) 0 stimValue
              (createStore (mesh := singleDomain) (model := standInModel) 0)
              Hall) as [Hw Hv].
  split; [exact Hw|]. apply Hv. lia.
Defined.

Lemma stimulusWrites_owned_witness :
  8 ∈ stimulusWrites (mesh := twoDomains) 1 ∧
  8 ∈ ownedNodes (mesh := twoDomains) 1 ∧
  8 ∈ localNodes (mesh := twoDomains) 1 ∧
  firstNodeNumber ≤ 8 ≤ lastNodeNumber.
Proof.
  assert (8 ∈ stimulusWrites (mesh := twoDomains) 1) as Hin.
  { apply elem_of_stimulusWrites. split; [|reflexivity].
    apply elem_of_stimulusRange. vm_compute. lia. }
  split; [exact Hin|].
  exact (stimulusWrites_owned (mesh := twoDomains) 1 8 Hin).
Defined.
